(** * Middleware chains and the CORS method middleware of [mux]

    A shallow embedding of [middleware.go]: the middleware interface with its
    two implementations, the [Use] family on routers and routes, and
    [CORSMethodMiddleware] with [getAllMethodsForRoute].

    Handlers are effectful Go code: they mutate the [http.ResponseWriter] they
    are handed, write to the process log and read the router through a
    pointer.  They are modelled in a state monad over a small heap, with a
    [Panic] outcome for the dereference of a pointer that holds nothing. *)

From stdpp Require Import gmap strings list.

Set Default Proof Using "Type".

(** ** Values of the Go types the file works with *)

(** Modelled from the spec: the mismatch kinds of the matching engine, as
    Go [error] values.  [ErrMethodMismatch] and [ErrNotFound] are the
    sentinels the engine stores in [RouteMatch.MatchErr]; they are declared
    next to the router, not in [middleware.go], and are compared by identity,
    which distinct constructors give.  [errors_New] stands for every other
    error value, told apart by its text. *)
Inductive error : Type :=
  | ErrMethodMismatch
  | ErrNotFound
  | errors_New (text : string).

#[global] Instance error_eq_dec : EqDecision error.
Proof. solve_decision. Defined.

(** The part of [*http.Request] that a matcher looks at. *)
Record Request : Type := mkRequest {
  Method : string;
  Host : string;
  Path : string;
}.

(** Modelled from the spec: [RouteMatch], the mutable match result, declared
    outside [middleware.go].  Only its [MatchErr] is read here. *)
Record RouteMatch : Type := mkRouteMatch {
  MatchErr : option error;
}.

(** [var match RouteMatch]: the zero value. *)
Definition zeroRouteMatch : RouteMatch := {| MatchErr := None |}.

(** Modelled from the spec: a route as the matching engine presents it.
    [Route.Match] and [Route.GetMethods] are methods of the route that live
    outside [middleware.go]; a route is therefore given by what these two
    calls answer.  [Match req m] receives the match record by reference and returns
    the verdict together with the record as it left it; [GetMethods] returns
    Go's pair of a method list and an error. *)
Record matching : Type := mkMatching {
  Match : Request → RouteMatch → bool * RouteMatch;
  GetMethods : list string * option error;
}.

(** [http.Header]: a map from header names to their values. *)
Abbreviation Header := (gmap string (list string)).

(** What an [http.ResponseWriter] has accumulated: the header map behind
    [Header()], the status given to [WriteHeader], the chunks given to
    [Write]. *)
Record response : Type := mkResponse {
  header : Header;
  status : option Z;
  body : list string;
}.

(** Pointers ([*Router]) and interface values ([http.ResponseWriter]). *)
Abbreviation ptr := positive.

(** ** The heap and the handler monad *)

(** The heap a running handler sees: for every router its [routes] field (a
    handler reads nothing else of a router), the response writers, and the
    lines handed to the standard logger, oldest first.  The [middlewares]
    fields hold handler transformers themselves and stay in the [Router] and
    [Route] records further down. *)
Record World : Type := mkWorld {
  routers : gmap ptr (list matching);
  writers : gmap ptr response;
  logged : list string;
}.

Inductive result (A : Type) : Type :=
  | Done (a : A) (σ : World)
  | Panic.
Arguments Done {A} a σ.
Arguments Panic {A}.

Definition M (A : Type) : Type := World → result A.

#[global] Instance M_ret : MRet M := λ A a σ, Done a σ.
#[global] Instance M_bind : MBind M := λ A B f m σ,
  match m σ with
  | Done a σ' => f a σ'
  | Panic => Panic
  end.

(** [for _, v := range xs { body }] for a body without [break] or [return]. *)
Fixpoint range {A : Type} (xs : list A) (body : A → M unit) : M unit :=
  match xs with
  | [] => mret ()
  | v :: rest => body v ;; range rest body
  end.

(** [r.routes] through the pointer [r]. *)
Definition load_routes (r : ptr) : M (list matching) := λ σ,
  match routers σ !! r with
  | Some rs => Done rs σ
  | None => Panic
  end.

Definition set_header (key value : string) (rw : response) : response :=
  {| header := <[key := [value]]> (header rw);
     status := status rw;
     body := body rw |}.

Definition with_writers (ws : gmap ptr response) (σ : World) : World :=
  {| routers := routers σ; writers := ws; logged := logged σ |}.

(** [w.Header().Set(key, value)]: the entry for [key] becomes the one-element
    list [value].  [Set] first brings [key] to its canonical MIME form; the
    only key this file passes, [Access-Control-Allow-Methods], is already in
    that form. *)
Definition Header_Set (w : ptr) (key value : string) : M unit := λ σ,
  match writers σ !! w with
  | Some rw => Done () (with_writers (<[w := set_header key value rw]> (writers σ)) σ)
  | None => Panic
  end.

(** [log.Printf] with the message already formatted: one more record of the
    standard logger. *)
Definition log_Printf (msg : string) : M unit := λ σ,
  Done () {| routers := routers σ; writers := writers σ; logged := logged σ ++ [msg] |}.

(** [strings.Join(elems, sep)]. *)
Definition Join (elems : list string) (sep : string) : string :=
  String.concat sep elems.

(** [http.MethodOptions]. *)
Definition MethodOptions : string := "OPTIONS".

(** ** Handlers and middleware *)

(** [http.Handler]: anything with [ServeHTTP(w, r)]. *)
Definition Handler : Type := ptr → Request → M unit.

Definition ServeHTTP (h : Handler) (w : ptr) (r : Request) : M unit := h w r.

(** [http.HandlerFunc]: the adapter from a function to a [Handler]. *)
Definition HandlerFunc (f : ptr → Request → M unit) : Handler := f.

Definition MiddlewareFunc : Type := Handler → Handler.

Record MiddlewareFuncWithLogging : Type := mkWithLogging {
  Handler_ : MiddlewareFunc;
  Name : string;
}.

(** The [middleware] interface: a type with a method [Middleware]. *)
Class Middleware_of (T : Type) : Type :=
  Middleware : T → Handler → Handler.

#[global] Instance MiddlewareFunc_Middleware : Middleware_of MiddlewareFunc :=
  λ mw handler, mw handler.

#[global] Instance MiddlewareFuncWithLogging_Middleware :
  Middleware_of MiddlewareFuncWithLogging :=
  λ mw handler,
    Handler_ mw (HandlerFunc (λ w r,
      log_Printf ("Executing middleware: " +:+ Name mw) ;;
      ServeHTTP handler w r)).

(** A value of interface type [middleware]: one of the two implementations
    of this file together with its dynamic type. *)
Inductive middleware : Type :=
  | of_MiddlewareFunc (fn : MiddlewareFunc)
  | of_MiddlewareFuncWithLogging (mw : MiddlewareFuncWithLogging).

#[global] Instance middleware_Middleware : Middleware_of middleware :=
  λ mw handler,
    match mw with
    | of_MiddlewareFunc fn => Middleware fn handler
    | of_MiddlewareFuncWithLogging l => Middleware l handler
    end.

(** ** Routers and routes as chain owners *)

(** The two structs are declared outside [middleware.go]; these are the
    fields the file uses: a route's matching engine and chain, a router's
    route list and chain. *)

Record Route : Type := mkRoute {
  engine : matching;
  route_middlewares : list middleware;
}.

Record Router : Type := mkRouter {
  routes : list Route;
  middlewares : list middleware;
}.

(** [r.middlewares = append(r.middlewares, mw)] *)
Definition Router_useInterface (mw : middleware) (r : Router) : Router :=
  {| routes := routes r; middlewares := middlewares r ++ [mw] |}.

(** [for _, fn := range mwf { r.middlewares = append(r.middlewares, fn) }] *)
Fixpoint Router_Use (mwf : list MiddlewareFunc) (r : Router) : Router :=
  match mwf with
  | [] => r
  | fn :: rest =>
      Router_Use rest
        {| routes := routes r;
           middlewares := middlewares r ++ [of_MiddlewareFunc fn] |}
  end.

Definition Router_UseWithLogging (name : string) (mw : MiddlewareFunc)
    (r : Router) : Router :=
  Router_useInterface
    (of_MiddlewareFuncWithLogging {| Handler_ := mw; Name := name |}) r.

Definition Route_useInterface (mw : middleware) (r : Route) : Route :=
  {| engine := engine r; route_middlewares := route_middlewares r ++ [mw] |}.

(** The same loop on the route's own chain; the method hands back its
    receiver, here the route after the appends. *)
Fixpoint Route_Use (mwf : list MiddlewareFunc) (r : Route) : Route :=
  match mwf with
  | [] => r
  | fn :: rest =>
      Route_Use rest
        {| engine := engine r;
           route_middlewares := route_middlewares r ++ [of_MiddlewareFunc fn] |}
  end.

Definition Route_UseWithLogging (name : string) (mw : MiddlewareFunc)
    (r : Route) : Route :=
  Route_useInterface
    (of_MiddlewareFuncWithLogging {| Handler_ := mw; Name := name |}) r.

(** ** The CORS method middleware *)

(** The loop of [getAllMethodsForRoute] over [r.routes], with [allMethods] as
    the loop's variable.  A nil slice and an empty one are both [[]]. *)
Fixpoint rangeRoutes (rs : list matching) (req : Request)
    (allMethods : list string) : list string * option error :=
  match rs with
  | [] => (allMethods, None)
  | route :: rest =>
      let '(matched, match_) := Match route req zeroRouteMatch in
      if matched || bool_decide (MatchErr match_ = Some ErrMethodMismatch) then
        let '(methods, err) := GetMethods route in
        match err with
        | Some e => ([], Some e)
        | None => rangeRoutes rest req (allMethods ++ methods)
        end
      else rangeRoutes rest req allMethods
  end.

Definition getAllMethodsForRoute (r : ptr) (req : Request)
    : M (list string * option error) :=
  rs ← load_routes r;
  mret (rangeRoutes rs req []).

Definition CORSMethodMiddleware (r : ptr) : MiddlewareFunc :=
  λ next, HandlerFunc (λ w req,
    '(allMethods, err) ← getAllMethodsForRoute r req;
    match err with
    | None =>
        range allMethods (λ v,
          if bool_decide (v = MethodOptions) then
            Header_Set w "Access-Control-Allow-Methods" (Join allMethods ",")
          else mret ())
    | Some _ => mret ()
    end ;;
    ServeHTTP next w req).

(** ** The aggregation as the specification words it *)

(** A route takes part in the aggregate when its match succeeded or the
    mismatch it recorded is the method mismatch. *)
Definition included (req : Request) (route : matching) : bool :=
  (Match route req zeroRouteMatch).1
  || bool_decide (MatchErr (Match route req zeroRouteMatch).2 = Some ErrMethodMismatch).

(** The route's method report failed. *)
Definition fails (route : matching) : bool :=
  bool_decide (is_Some (GetMethods route).2).

(** Steps 1 and 2 of the per-request algorithm: keep the included routes in
    registration order; if one of them fails to report its methods the first
    such error is the outcome and no list is given, otherwise the methods of
    the included routes are strung together, repeats kept. *)
Definition aggregate (rs : list matching) (req : Request)
    : list string * option error :=
  let inc := List.filter (included req) rs in
  match List.find fails inc with
  | Some bad => ([], (GetMethods bad).2)
  | None => (List.flat_map (λ route, (GetMethods route).1) inc, None)
  end.

(** Step 3 of the per-request algorithm as a change of the heap: when the
    aggregation succeeded and holds [OPTIONS], the writer's header
    [Access-Control-Allow-Methods] becomes the comma-joined aggregate;
    nothing else happens. *)
Definition advertise (rs : list matching) (w : ptr) (req : Request)
    (σ : World) : World :=
  match aggregate rs req with
  | (ms, None) =>
      if bool_decide (MethodOptions ∈ ms)
      then with_writers
             (alter (set_header "Access-Control-Allow-Methods" (Join ms ","))
                w (writers σ)) σ
      else σ
  | (_, Some _) => σ
  end.

(** The adapter as section 4.2 words it: first the log record, then the
    handler the wrapped interceptor produced. *)
Definition log_then_wrapped (mw : MiddlewareFuncWithLogging)
    (handler : Handler) : Handler :=
  HandlerFunc (λ w r,
    log_Printf ("Executing middleware: " +:+ Name mw) ;;
    ServeHTTP (Handler_ mw handler) w r).

(** ** Collaborators outside [middleware.go] *)

(** Modelled from the spec: the matching engine's two answers for a route
    declared by a path and a method list (the routes of the scenarios of
    section 8; [Route.Match] and [Route.GetMethods] are not in
    [middleware.go]).  The path decides first; on the right path a method
    outside the list is the method mismatch. *)
Definition pathRoute (path : string) (methods : list string) : matching :=
  {| Match := λ req m,
       if bool_decide (Path req = path) then
         if bool_decide (Method req ∈ methods) then (true, m)
         else (false, {| MatchErr := Some ErrMethodMismatch |})
       else (false, {| MatchErr := Some ErrNotFound |});
     GetMethods := (methods, None) |}.

(** A route that matches every request and has no method matcher, so that
    its method report is an error. *)
Definition noMethods : matching :=
  {| Match := λ _ m, (true, m);
     GetMethods := ([], Some (errors_New "mux: route doesn't have methods")) |}.

(** Modelled from the spec: route registration, which [middleware.go] does
    not contain.  A router owns an ordered list of routes and registration
    order is kept, so a new route goes to the end of [r.routes]. *)
Definition register (r : ptr) (route : matching) : M unit := λ σ,
  match routers σ !! r with
  | Some rs =>
      Done () {| routers := <[r := rs ++ [route]]> (routers σ);
                 writers := writers σ;
                 logged := logged σ |}
  | None => Panic
  end.

(** [w.Write(chunk)] and [w.WriteHeader(code)] of [http.ResponseWriter], for
    the handlers the middleware is composed with.  A status once written
    stays: a later [WriteHeader] is ignored. *)
Definition ResponseWriter_Write (w : ptr) (chunk : string) : M unit := λ σ,
  match writers σ !! w with
  | Some rw =>
      Done () (with_writers
                 (<[w := {| header := header rw; status := status rw;
                            body := body rw ++ [chunk] |}]> (writers σ)) σ)
  | None => Panic
  end.

Definition ResponseWriter_WriteHeader (w : ptr) (code : Z) : M unit := λ σ,
  match writers σ !! w with
  | Some rw =>
      Done () (with_writers
                 (<[w := {| header := header rw;
                            status := match status rw with
                                      | Some first => Some first
                                      | None => Some code
                                      end;
                            body := body rw |}]> (writers σ)) σ)
  | None => Panic
  end.

(** A downstream handler that leaves a trace of each call: it writes the
    request line it was given to the writer it was given. *)
Definition echo : Handler :=
  HandlerFunc (λ w r, ResponseWriter_Write w (Method r +:+ " " +:+ Path r)).

(** An interceptor that answers by itself and never calls [next]. *)
Definition deny : MiddlewareFunc :=
  λ _, HandlerFunc (λ w _, ResponseWriter_WriteHeader w 403).

(** An interceptor that calls [next] a second time after the first. *)
Definition again : MiddlewareFunc :=
  λ next, HandlerFunc (λ w r, ServeHTTP next w r ;; ServeHTTP next w r).

(** An interceptor that works before and after the one call of [next]. *)
Definition around (before after : Handler) : MiddlewareFunc :=
  λ next, HandlerFunc (λ w r,
    ServeHTTP before w r ;; ServeHTTP next w r ;; ServeHTTP after w r).

Definition announce (line : string) : Handler :=
  HandlerFunc (λ _ _, log_Printf line).

Definition emptyResponse : response :=
  {| header := ∅; status := None; body := [] |}.

(** A heap with one router at address 1 and one fresh writer at address 2. *)
Definition heap1 (rs : list matching) : World :=
  {| routers := {[ 1%positive := rs ]};
     writers := {[ 2%positive := emptyResponse ]};
     logged := [] |}.

Definition ACAM : string := "Access-Control-Allow-Methods".

(** What is left of a run: the heap it ended in. *)
Definition final {A : Type} (x : result A) : option World :=
  match x with
  | Done _ σ => Some σ
  | Panic => None
  end.

(** * Properties *)

(** ** Running the monad *)

Lemma bind_Done {A B : Type} (m : M A) (f : A → M B) (σ σ' : World) (a : A) :
  m σ = Done a σ' → (m ≫= f) σ = f a σ'.
Proof. intros Hm. unfold mbind, M_bind. by rewrite Hm. Qed.

Lemma bind_Panic {A B : Type} (m : M A) (f : A → M B) (σ : World) :
  m σ = Panic → (m ≫= f) σ = Panic.
Proof. intros Hm. unfold mbind, M_bind. by rewrite Hm. Qed.

Lemma load_routes_Some (r : ptr) (σ : World) (rs : list matching) :
  routers σ !! r = Some rs → load_routes r σ = Done rs σ.
Proof. intros Hr. unfold load_routes. by rewrite Hr. Qed.

Lemma set_header_twice (k v : string) (rw : response) :
  set_header k v (set_header k v rw) = set_header k v rw.
Proof. unfold set_header; simpl. by rewrite insert_insert_eq. Qed.

(** Setting the same header to the same value again changes nothing. *)
Lemma Header_Set_again (w : ptr) (k v : string) (σ σ' : World) :
  Header_Set w k v σ = Done () σ' → Header_Set w k v σ' = Done () σ'.
Proof.
  unfold Header_Set. destruct (writers σ !! w) as [rw|] eqn:Hw; [|done].
  intros [= <-]. simpl. rewrite lookup_insert_eq.
  by rewrite set_header_twice, insert_insert_eq.
Qed.

(** The loop over the aggregate sets the header once for every [OPTIONS] it
    meets, always to the same value: it amounts to one conditional [Set]. *)
Lemma range_Header_Set (w : ptr) (k v : string) (ms : list string) (σ : World) :
  range ms (λ x, if bool_decide (x = MethodOptions)
                 then Header_Set w k v else mret ()) σ
  = if bool_decide (MethodOptions ∈ ms) then Header_Set w k v σ else Done () σ.
Proof.
  revert σ. induction ms as [|m ms IH]; intros σ; [done|cbn [range]].
  destruct (decide (m = MethodOptions)) as [->|Hne].
  - rewrite (bool_decide_eq_true_2 (MethodOptions = MethodOptions)) by done.
    rewrite (bool_decide_eq_true_2 (MethodOptions ∈ _)) by apply list_elem_of_here.
    destruct (Header_Set w k v σ) as [[] σ1|] eqn:Hset.
    + rewrite (bind_Done _ _ _ _ _ Hset), IH.
      rewrite (Header_Set_again _ _ _ _ _ Hset). by case_bool_decide.
    + by rewrite (bind_Panic _ _ _ Hset).
  - rewrite (bool_decide_eq_false_2 (m = MethodOptions)) by done.
    rewrite (bind_Done _ _ σ σ ()) by done. rewrite IH.
    rewrite (bool_decide_ext (MethodOptions ∈ m :: ms) (MethodOptions ∈ ms)); [done|].
    rewrite elem_of_cons. split; [by intros [<-|?] | by right].
Qed.

(** ** The aggregation loop *)

(** One turn of the loop on a route that is left out. *)
Lemma rangeRoutes_skip (route : matching) (rest : list matching)
    (req : Request) (acc : list string) :
  included req route = false →
  rangeRoutes (route :: rest) req acc = rangeRoutes rest req acc.
Proof.
  unfold included. cbn [rangeRoutes].
  destruct (Match route req zeroRouteMatch) as [matched m]; simpl.
  by intros ->.
Qed.

(** One turn of the loop on an included route. *)
Lemma rangeRoutes_take (route : matching) (rest : list matching)
    (req : Request) (acc : list string) :
  included req route = true →
  rangeRoutes (route :: rest) req acc =
    match (GetMethods route).2 with
    | Some e => ([], Some e)
    | None => rangeRoutes rest req (acc ++ (GetMethods route).1)
    end.
Proof.
  unfold included. cbn [rangeRoutes].
  destruct (Match route req zeroRouteMatch) as [matched m]; simpl.
  intros ->. by destruct (GetMethods route) as [methods [e|]].
Qed.

Lemma fails_Some (route : matching) (e : error) :
  (GetMethods route).2 = Some e → fails route = true.
Proof. intros He. unfold fails. rewrite He. apply bool_decide_eq_true_2. eauto. Qed.

Lemma fails_None (route : matching) :
  (GetMethods route).2 = None → fails route = false.
Proof.
  intros He. unfold fails. rewrite He. apply bool_decide_eq_false_2.
  by intros [? ?].
Qed.

(** The loop against the specification's wording, for any value of the
    loop variable. *)
Lemma rangeRoutes_spec (rs : list matching) (req : Request)
    (acc : list string) :
  rangeRoutes rs req acc =
    match List.find fails (List.filter (included req) rs) with
    | Some bad => ([], (GetMethods bad).2)
    | None =>
        (acc ++ List.flat_map (λ route, (GetMethods route).1)
                  (List.filter (included req) rs), None)
    end.
Proof.
  revert acc. induction rs as [|route rest IH]; intros acc.
  - simpl. by rewrite app_nil_r.
  - destruct (included req route) eqn:Hinc.
    + rewrite rangeRoutes_take by done.
      cbn [List.filter]. rewrite Hinc. cbn [List.find List.flat_map].
      destruct (GetMethods route).2 as [e|] eqn:He.
      * by rewrite (fails_Some _ _ He), He.
      * rewrite (fails_None _ He), IH, app_assoc. done.
    + rewrite rangeRoutes_skip by done.
      cbn [List.filter]. rewrite Hinc. apply IH.
Qed.

Lemma rangeRoutes_aggregate (rs : list matching) (req : Request) :
  rangeRoutes rs req [] = aggregate rs req.
Proof. by rewrite rangeRoutes_spec. Qed.

Lemma rangeRoutes_app (rs1 rs2 : list matching) (req : Request)
    (acc : list string) :
  rangeRoutes (rs1 ++ rs2) req acc =
    match rangeRoutes rs1 req acc with
    | (ms, None) => rangeRoutes rs2 req ms
    | (_, Some e) => ([], Some e)
    end.
Proof.
  revert acc. induction rs1 as [|route rest IH]; intros acc; [done|].
  rewrite <- app_comm_cons.
  destruct (included req route) eqn:Hinc.
  - rewrite !rangeRoutes_take by done.
    destruct (GetMethods route).2; [done|apply IH].
  - rewrite !rangeRoutes_skip by done. apply IH.
Qed.

(** ** One request through the CORS handler *)

Lemma getAllMethodsForRoute_run (r : ptr) (req : Request) (σ : World)
    (rs : list matching) :
  routers σ !! r = Some rs →
  getAllMethodsForRoute r req σ = Done (rangeRoutes rs req []) σ.
Proof.
  intros Hr. unfold getAllMethodsForRoute.
  by rewrite (bind_Done _ _ _ _ _ (load_routes_Some _ _ _ Hr)).
Qed.

(** The handler, with the loop over the aggregate folded into one test. *)
Lemma CORSMethodMiddleware_run (r : ptr) (next : Handler) (w : ptr)
    (req : Request) (σ : World) (rs : list matching) :
  routers σ !! r = Some rs →
  ServeHTTP (CORSMethodMiddleware r next) w req σ =
    match rangeRoutes rs req [] with
    | (ms, None) =>
        if bool_decide (MethodOptions ∈ ms)
        then (Header_Set w ACAM (Join ms ",") ;; ServeHTTP next w req) σ
        else ServeHTTP next w req σ
    | (_, Some _) => ServeHTTP next w req σ
    end.
Proof.
  intros Hr. unfold CORSMethodMiddleware, HandlerFunc, ServeHTTP at 1.
  rewrite (bind_Done _ _ _ _ _ (getAllMethodsForRoute_run _ _ _ _ Hr)).
  destruct (rangeRoutes rs req []) as [ms [e|]].
  - by rewrite (bind_Done _ _ σ σ ()).
  - unfold mbind at 1, M_bind. rewrite range_Header_Set.
    case_bool_decide; [|done].
    unfold ACAM, mbind, M_bind. by destruct (Header_Set _ _ _ σ).
Qed.

Lemma included_iff (req : Request) (route : matching) :
  included req route = true ↔
  (Match route req zeroRouteMatch).1 = true
  ∨ MatchErr (Match route req zeroRouteMatch).2 = Some ErrMethodMismatch.
Proof.
  unfold included. rewrite orb_true_iff, bool_decide_eq_true. done.
Qed.

(** When no included route fails, the aggregate is the included routes'
    method lists strung together. *)
Lemma aggregate_all_report (rs : list matching) (req : Request) :
  (∀ route, route ∈ rs → included req route = true →
            (GetMethods route).2 = None) →
  aggregate rs req =
    (List.flat_map (λ route, (GetMethods route).1)
       (List.filter (included req) rs), None).
Proof.
  intros Hok. unfold aggregate.
  destruct (List.find fails _) as [bad|] eqn:Hfind; [|done].
  apply find_some in Hfind as [Hin Hbad].
  apply filter_In in Hin as [Hin Hinc].
  apply list_elem_of_In in Hin.
  unfold fails in Hbad. apply bool_decide_eq_true in Hbad as [e He].
  rewrite (Hok _ Hin Hinc) in He. done.
Qed.

(** When an included route fails, the aggregate is the error of the first
    such route and no list. *)
Lemma aggregate_some_fails (rs : list matching) (req : Request)
    (route : matching) :
  route ∈ rs → included req route = true → fails route = true →
  ∃ bad e,
    List.find fails (List.filter (included req) rs) = Some bad
    ∧ bad ∈ rs ∧ included req bad = true ∧ (GetMethods bad).2 = Some e
    ∧ aggregate rs req = ([], Some e).
Proof.
  intros Hin Hinc Hfails. unfold aggregate.
  destruct (List.find fails _) as [bad|] eqn:Hfind.
  - pose proof Hfind as Hbad. apply find_some in Hbad as [Hbin Hbad].
    apply filter_In in Hbin as [Hbin Hbinc].
    unfold fails in Hbad. apply bool_decide_eq_true in Hbad as [e He].
    exists bad, e. rewrite He. by rewrite list_elem_of_In.
  - eapply find_none in Hfind.
    + by rewrite Hfails in Hfind.
    + apply filter_In. by rewrite <- list_elem_of_In.
Qed.

(** A route that is left out can be struck from the list without changing
    the outcome. *)
Lemma aggregate_left_out (pre post : list matching) (route : matching)
    (req : Request) :
  included req route = false →
  aggregate (pre ++ route :: post) req = aggregate (pre ++ post) req.
Proof.
  intros Hinc. unfold aggregate.
  rewrite !List.filter_app. cbn [List.filter]. by rewrite Hinc.
Qed.

(** ** Method aggregation *)

(** C1: [getAllMethodsForRoute] walks the routes in registration order and
    takes a route's methods exactly when its [Match] succeeded or left the
    method-mismatch error; a route with any other outcome contributes
    nothing.  The aggregate is the included routes' method lists, in order,
    repeats kept (and the first reporting error, if an included route
    fails). *)
Theorem getAllMethodsForRoute_included (r : ptr) (req : Request) (σ : World)
    (rs : list matching) :
  routers σ !! r = Some rs →
  getAllMethodsForRoute r req σ = Done (aggregate rs req) σ
  ∧ (∀ route,
       included req route = true ↔
       (Match route req zeroRouteMatch).1 = true
       ∨ MatchErr (Match route req zeroRouteMatch).2 = Some ErrMethodMismatch)
  ∧ ((∀ route, route ∈ rs → included req route = true →
               (GetMethods route).2 = None) →
     getAllMethodsForRoute r req σ =
       Done (List.flat_map (λ route, (GetMethods route).1)
               (List.filter (included req) rs), None) σ)
  ∧ (∀ pre route post,
       rs = pre ++ route :: post → included req route = false →
       getAllMethodsForRoute r req σ =
         Done (rangeRoutes (pre ++ post) req []) σ).
Proof.
  intros Hr. rewrite (getAllMethodsForRoute_run _ _ _ _ Hr).
  rewrite rangeRoutes_aggregate. split; [done|]. split; [apply included_iff|].
  split.
  - intros Hok. by rewrite aggregate_all_report.
  - intros pre route post -> Hinc.
    by rewrite rangeRoutes_aggregate, aggregate_left_out.
Qed.

(** Three routes, the second on another path although it takes every
    method asked for: only the first and third contribute, in order. *)
Lemma getAllMethodsForRoute_included_witness :
  getAllMethodsForRoute 1 {| Method := "OPTIONS"; Host := ""; Path := "/x" |}
    (heap1 [pathRoute "/x" ["GET"; "OPTIONS"];
            pathRoute "/elsewhere" ["OPTIONS"; "DELETE"];
            pathRoute "/x" ["OPTIONS"; "POST"]])
  = Done (["GET"; "OPTIONS"; "OPTIONS"; "POST"], None)
      (heap1 [pathRoute "/x" ["GET"; "OPTIONS"];
              pathRoute "/elsewhere" ["OPTIONS"; "DELETE"];
              pathRoute "/x" ["OPTIONS"; "POST"]]).
Proof.
  exact (proj1 (getAllMethodsForRoute_included 1 _ (heap1 _) _ eq_refl)).
Defined.

(** ** The header *)

(** C2: when the aggregation succeeds the handler sets
    [Access-Control-Allow-Methods] to the aggregate joined by commas, as
    collected, exactly when the aggregate contains [OPTIONS], and otherwise
    hands the heap on untouched.  For the routes [/x GET] and
    [/x OPTIONS,POST] the request [OPTIONS /x] gets [GET,OPTIONS,POST]. *)
Theorem CORSMethodMiddleware_sets_header :
  (∀ (r : ptr) (next : Handler) (w : ptr) (req : Request) (σ : World)
     (rw : response) (ms : list string),
     writers σ !! w = Some rw →
     getAllMethodsForRoute r req σ = Done (ms, None) σ →
     ServeHTTP (CORSMethodMiddleware r next) w req σ =
       ServeHTTP next w req
         (if bool_decide (MethodOptions ∈ ms)
          then with_writers
                 (<[w := set_header "Access-Control-Allow-Methods"
                           (Join ms ",") rw]> (writers σ)) σ
          else σ))
  ∧ (∀ next : Handler,
       ∃ σ',
         ServeHTTP (CORSMethodMiddleware 1 next) 2
           {| Method := "OPTIONS"; Host := ""; Path := "/x" |}
           (heap1 [pathRoute "/x" ["GET"]; pathRoute "/x" ["OPTIONS"; "POST"]])
         = ServeHTTP next 2
             {| Method := "OPTIONS"; Host := ""; Path := "/x" |} σ'
         ∧ (writers σ' !! 2%positive ≫=
              λ rw, header rw !! "Access-Control-Allow-Methods")
           = Some ["GET,OPTIONS,POST"]).
Proof.
  assert (∀ (r : ptr) (next : Handler) (w : ptr) (req : Request) (σ : World)
     (rw : response) (ms : list string),
     writers σ !! w = Some rw →
     getAllMethodsForRoute r req σ = Done (ms, None) σ →
     ServeHTTP (CORSMethodMiddleware r next) w req σ =
       ServeHTTP next w req
         (if bool_decide (MethodOptions ∈ ms)
          then with_writers
                 (<[w := set_header ACAM (Join ms ",") rw]> (writers σ)) σ
          else σ)) as General.
  { intros r next w req σ rw ms Hw Hget.
    destruct (routers σ !! r) as [rs|] eqn:Hr.
    - rewrite (getAllMethodsForRoute_run _ _ _ _ Hr) in Hget.
      injection Hget as Hrange.
      rewrite (CORSMethodMiddleware_run _ _ _ _ _ _ Hr), Hrange.
      case_bool_decide; [|done].
      unfold mbind, M_bind, Header_Set. by rewrite Hw.
    - unfold getAllMethodsForRoute, mbind, M_bind, load_routes in Hget.
      by rewrite Hr in Hget. }
  split; [exact General|].
  intros next. eexists. split.
  - apply (General 1%positive next 2%positive _ (heap1 _) emptyResponse
             ["GET"; "OPTIONS"; "POST"]); reflexivity.
  - reflexivity.
Qed.

(** Repeats are kept: two routes that both list [OPTIONS]. *)
Lemma CORSMethodMiddleware_sets_header_witness :
  ServeHTTP (CORSMethodMiddleware 1 echo) 2
    {| Method := "GET"; Host := ""; Path := "/x" |}
    (heap1 [pathRoute "/x" ["GET"; "OPTIONS"]; pathRoute "/x" ["OPTIONS"]])
  = ServeHTTP echo 2 {| Method := "GET"; Host := ""; Path := "/x" |}
      (with_writers
         (<[2%positive := set_header "Access-Control-Allow-Methods"
                            "GET,OPTIONS,OPTIONS" emptyResponse]>
            (writers (heap1 [pathRoute "/x" ["GET"; "OPTIONS"];
                             pathRoute "/x" ["OPTIONS"]])))
         (heap1 [pathRoute "/x" ["GET"; "OPTIONS"]; pathRoute "/x" ["OPTIONS"]])).
Proof.
  exact (proj1 CORSMethodMiddleware_sets_header 1%positive echo 2%positive
           {| Method := "GET"; Host := ""; Path := "/x" |}
           (heap1 [pathRoute "/x" ["GET"; "OPTIONS"]; pathRoute "/x" ["OPTIONS"]])
           emptyResponse ["GET"; "OPTIONS"; "OPTIONS"] eq_refl eq_refl).
Defined.

(** ** Errors of the method report *)

(** C3: if [GetMethods] fails for an included route, the aggregation gives
    up with the error of the first such route and an empty list, and the
    handler swallows it: no header is set, the heap reaches the next handler
    as it was, on the same writer and request. *)
Theorem getAllMethodsForRoute_error_absorbed (r : ptr) (req : Request)
    (σ : World) (rs : list matching) (route : matching) :
  routers σ !! r = Some rs →
  route ∈ rs → included req route = true → is_Some (GetMethods route).2 →
  ∃ bad e,
    List.find fails (List.filter (included req) rs) = Some bad
    ∧ (GetMethods bad).2 = Some e
    ∧ getAllMethodsForRoute r req σ = Done ([], Some e) σ
    ∧ ∀ (next : Handler) (w : ptr),
        ServeHTTP (CORSMethodMiddleware r next) w req σ
        = ServeHTTP next w req σ.
Proof.
  intros Hr Hin Hinc Herr.
  assert (fails route = true) as Hfails by by apply bool_decide_eq_true_2.
  destruct (aggregate_some_fails rs req route Hin Hinc Hfails)
    as (bad & e & Hfind & _ & _ & He & Hagg).
  exists bad, e. repeat split; try done.
  - by rewrite (getAllMethodsForRoute_run _ _ _ _ Hr), rangeRoutes_aggregate, Hagg.
  - intros next w. rewrite (CORSMethodMiddleware_run _ _ _ _ _ _ Hr).
    by rewrite rangeRoutes_aggregate, Hagg.
Qed.

Lemma getAllMethodsForRoute_error_absorbed_witness :
  ∃ bad e,
    List.find fails
      (List.filter (included {| Method := "OPTIONS"; Host := ""; Path := "/x" |})
         [pathRoute "/x" ["OPTIONS"]; noMethods]) = Some bad
    ∧ (GetMethods bad).2 = Some e
    ∧ getAllMethodsForRoute 1
        {| Method := "OPTIONS"; Host := ""; Path := "/x" |}
        (heap1 [pathRoute "/x" ["OPTIONS"]; noMethods])
      = Done ([], Some e) (heap1 [pathRoute "/x" ["OPTIONS"]; noMethods])
    ∧ ∀ (next : Handler) (w : ptr),
        ServeHTTP (CORSMethodMiddleware 1 next) w
          {| Method := "OPTIONS"; Host := ""; Path := "/x" |}
          (heap1 [pathRoute "/x" ["OPTIONS"]; noMethods])
        = ServeHTTP next w {| Method := "OPTIONS"; Host := ""; Path := "/x" |}
            (heap1 [pathRoute "/x" ["OPTIONS"]; noMethods]).
Proof.
  apply (getAllMethodsForRoute_error_absorbed 1%positive _ (heap1 _)
           [pathRoute "/x" ["OPTIONS"]; noMethods] noMethods).
  - reflexivity.
  - apply list_elem_of_In. simpl. auto.
  - reflexivity.
  - simpl. eauto.
Defined.

(** ** A router without routes *)

(** C9: on an empty route list the aggregation returns the empty list and
    no error, and the handler sets no header: the next handler receives the
    heap as it was. *)
Theorem getAllMethodsForRoute_no_routes (r : ptr) (req : Request) (σ : World) :
  routers σ !! r = Some [] →
  getAllMethodsForRoute r req σ = Done ([], None) σ
  ∧ ∀ (next : Handler) (w : ptr),
      ServeHTTP (CORSMethodMiddleware r next) w req σ = ServeHTTP next w req σ.
Proof.
  intros Hr. split.
  - by rewrite (getAllMethodsForRoute_run _ _ _ _ Hr).
  - intros next w. by rewrite (CORSMethodMiddleware_run _ _ _ _ _ _ Hr).
Qed.

Lemma getAllMethodsForRoute_no_routes_witness :
  getAllMethodsForRoute 1 {| Method := "OPTIONS"; Host := ""; Path := "/" |}
    (heap1 []) = Done ([], None) (heap1 [])
  ∧ ∀ (next : Handler) (w : ptr),
      ServeHTTP (CORSMethodMiddleware 1 next) w
        {| Method := "OPTIONS"; Host := ""; Path := "/" |} (heap1 [])
      = ServeHTTP next w {| Method := "OPTIONS"; Host := ""; Path := "/" |}
          (heap1 []).
Proof.
  apply (getAllMethodsForRoute_no_routes 1%positive _ (heap1 [])). reflexivity.
Defined.

(** ** Delegation and frame *)

(** What the handler does before it delegates is step 3 and nothing more. *)
Lemma CORSMethodMiddleware_hands_on (r : ptr) (next : Handler) (w : ptr)
    (req : Request) (σ : World) (rs : list matching) :
  routers σ !! r = Some rs → is_Some (writers σ !! w) →
  ServeHTTP (CORSMethodMiddleware r next) w req σ
  = ServeHTTP next w req (advertise rs w req σ).
Proof.
  intros Hr [rw Hw]. rewrite (CORSMethodMiddleware_run _ _ _ _ _ _ Hr).
  unfold advertise. rewrite rangeRoutes_aggregate.
  destruct (aggregate rs req) as [ms [e|]]; [done|].
  case_bool_decide; [|done].
  unfold mbind, M_bind, Header_Set, ACAM. rewrite Hw.
  do 2 f_equal. apply map_eq. intros w'.
  destruct (decide (w = w')) as [<-|Hne].
  - by rewrite lookup_insert_eq, lookup_alter_eq, Hw.
  - by rewrite lookup_insert_ne, lookup_alter_ne.
Qed.

Lemma advertise_routers (rs : list matching) (w : ptr) (req : Request)
    (σ : World) :
  routers (advertise rs w req σ) = routers σ
  ∧ logged (advertise rs w req σ) = logged σ.
Proof.
  unfold advertise. destruct (aggregate rs req) as [ms [e|]]; [done|].
  by case_bool_decide.
Qed.

Lemma advertise_other_writer (rs : list matching) (w w' : ptr)
    (req : Request) (σ : World) :
  w' ≠ w → writers (advertise rs w req σ) !! w' = writers σ !! w'.
Proof.
  intros Hne. unfold advertise.
  destruct (aggregate rs req) as [ms [e|]]; [done|].
  case_bool_decide; [|done]. simpl. by rewrite lookup_alter_ne.
Qed.

Lemma advertise_writer (rs : list matching) (w : ptr) (req : Request)
    (σ : World) (rw : response) :
  writers σ !! w = Some rw →
  ∃ rw',
    writers (advertise rs w req σ) !! w = Some rw'
    ∧ status rw' = status rw ∧ body rw' = body rw
    ∧ ∀ k, k ≠ "Access-Control-Allow-Methods" →
           header rw' !! k = header rw !! k.
Proof.
  intros Hw. unfold advertise.
  destruct (aggregate rs req) as [ms [e|]]; [by exists rw|].
  case_bool_decide; [|by exists rw].
  eexists. simpl. rewrite lookup_alter_eq, Hw. simpl. split; [done|].
  repeat split. intros k Hk. simpl. by rewrite lookup_insert_ne.
Qed.

(** C4: whatever the aggregation gave, the handler calls [next.ServeHTTP]
    once, last, on the writer and the request it was given itself: its run
    is the run of [next] from a heap that does not depend on [next], and a
    next handler that records its calls has recorded exactly one, for this
    request on this writer. *)
Theorem CORSMethodMiddleware_delegates_once (r w : ptr) (req : Request)
    (σ : World) (rs : list matching) (rw : response) :
  routers σ !! r = Some rs → writers σ !! w = Some rw →
  (∃ σ', ∀ next : Handler,
      ServeHTTP (CORSMethodMiddleware r next) w req σ
      = ServeHTTP next w req σ')
  ∧ ∃ σ'',
      ServeHTTP (CORSMethodMiddleware r echo) w req σ = Done () σ''
      ∧ body <$> writers σ'' !! w
        = Some (body rw ++ [Method req +:+ " " +:+ Path req])
      ∧ ∀ w', w' ≠ w → body <$> writers σ'' !! w' = body <$> writers σ !! w'.
Proof.
  intros Hr Hw. split.
  - exists (advertise rs w req σ). intros next.
    by apply CORSMethodMiddleware_hands_on.
  - rewrite (CORSMethodMiddleware_hands_on _ _ _ _ _ _ Hr) by eauto.
    destruct (advertise_writer rs w req σ rw Hw) as (rw' & Hw' & _ & Hbody & _).
    unfold echo, HandlerFunc, ServeHTTP, ResponseWriter_Write. rewrite Hw'.
    eexists. split; [done|]. simpl. split.
    + by rewrite lookup_insert_eq, Hbody.
    + intros w' Hne. rewrite lookup_insert_ne by done.
      by rewrite advertise_other_writer.
Qed.

(** The aggregation fails on the second route; the next handler runs all
    the same, once. *)
Lemma CORSMethodMiddleware_delegates_once_witness :
  (∃ σ', ∀ next : Handler,
      ServeHTTP (CORSMethodMiddleware 1 next) 2
        {| Method := "OPTIONS"; Host := ""; Path := "/x" |}
        (heap1 [pathRoute "/x" ["OPTIONS"]; noMethods])
      = ServeHTTP next 2 {| Method := "OPTIONS"; Host := ""; Path := "/x" |} σ')
  ∧ ∃ σ'',
      ServeHTTP (CORSMethodMiddleware 1 echo) 2
        {| Method := "OPTIONS"; Host := ""; Path := "/x" |}
        (heap1 [pathRoute "/x" ["OPTIONS"]; noMethods]) = Done () σ''
      ∧ body <$> writers σ'' !! 2%positive
        = Some (body emptyResponse ++ ["OPTIONS" +:+ " " +:+ "/x"])
      ∧ ∀ w', w' ≠ 2%positive →
          body <$> writers σ'' !! w'
          = body <$> writers (heap1 [pathRoute "/x" ["OPTIONS"]; noMethods]) !! w'.
Proof.
  apply (CORSMethodMiddleware_delegates_once 1%positive 2%positive
           {| Method := "OPTIONS"; Host := ""; Path := "/x" |} (heap1 _)
           [pathRoute "/x" ["OPTIONS"]; noMethods] emptyResponse);
    reflexivity.
Defined.

(** C10: of the heap the handler changes nothing but, possibly, the header
    [Access-Control-Allow-Methods] of the writer it was given: the routers,
    the log, every other writer, the writer's status and body and all its
    other headers reach the next handler as they were, together with the
    request itself. *)
Theorem CORSMethodMiddleware_frame (r w : ptr) (req : Request) (σ : World)
    (rs : list matching) (rw : response) :
  routers σ !! r = Some rs → writers σ !! w = Some rw →
  ∃ σ' rw',
    (∀ next : Handler,
       ServeHTTP (CORSMethodMiddleware r next) w req σ
       = ServeHTTP next w req σ')
    ∧ routers σ' = routers σ
    ∧ logged σ' = logged σ
    ∧ (∀ w', w' ≠ w → writers σ' !! w' = writers σ !! w')
    ∧ writers σ' !! w = Some rw'
    ∧ status rw' = status rw
    ∧ body rw' = body rw
    ∧ ∀ k, k ≠ "Access-Control-Allow-Methods" →
           header rw' !! k = header rw !! k.
Proof.
  intros Hr Hw.
  destruct (advertise_writer rs w req σ rw Hw) as (rw' & Hw' & Hst & Hbody & Hhdr).
  destruct (advertise_routers rs w req σ) as [Hrouters Hlog].
  exists (advertise rs w req σ), rw'.
  split; [|split_and!; try done].
  - intros next. apply CORSMethodMiddleware_hands_on; eauto.
  - intros w' Hne. by apply advertise_other_writer.
Qed.

Lemma CORSMethodMiddleware_frame_witness :
  ∃ σ' rw',
    (∀ next : Handler,
       ServeHTTP (CORSMethodMiddleware 1 next) 2
         {| Method := "POST"; Host := ""; Path := "/x" |}
         (heap1 [pathRoute "/x" ["GET"]; pathRoute "/x" ["OPTIONS"; "POST"]])
       = ServeHTTP next 2 {| Method := "POST"; Host := ""; Path := "/x" |} σ')
    ∧ routers σ'
      = routers (heap1 [pathRoute "/x" ["GET"]; pathRoute "/x" ["OPTIONS"; "POST"]])
    ∧ logged σ'
      = logged (heap1 [pathRoute "/x" ["GET"]; pathRoute "/x" ["OPTIONS"; "POST"]])
    ∧ (∀ w', w' ≠ 2%positive →
         writers σ' !! w'
         = writers (heap1 [pathRoute "/x" ["GET"];
                           pathRoute "/x" ["OPTIONS"; "POST"]]) !! w')
    ∧ writers σ' !! 2%positive = Some rw'
    ∧ status rw' = status emptyResponse
    ∧ body rw' = body emptyResponse
    ∧ ∀ k, k ≠ "Access-Control-Allow-Methods" →
           header rw' !! k = header emptyResponse !! k.
Proof.
  apply (CORSMethodMiddleware_frame 1%positive 2%positive
           {| Method := "POST"; Host := ""; Path := "/x" |} (heap1 _)
           [pathRoute "/x" ["GET"]; pathRoute "/x" ["OPTIONS"; "POST"]]
           emptyResponse); reflexivity.
Defined.

(** ** The chains *)

Lemma Router_Use_spec (mwf : list MiddlewareFunc) (r : Router) :
  Router_Use mwf r =
    {| routes := routes r;
       middlewares := middlewares r ++ (of_MiddlewareFunc <$> mwf) |}.
Proof.
  revert r. induction mwf as [|fn rest IH]; intros r.
  - destruct r. simpl. by rewrite app_nil_r.
  - cbn [Router_Use]. rewrite IH. simpl. by rewrite <- app_assoc.
Qed.

Lemma Route_Use_spec (mwf : list MiddlewareFunc) (r : Route) :
  Route_Use mwf r =
    {| engine := engine r;
       route_middlewares := route_middlewares r ++ (of_MiddlewareFunc <$> mwf) |}.
Proof.
  revert r. induction mwf as [|fn rest IH]; intros r.
  - destruct r. simpl. by rewrite app_nil_r.
  - cbn [Route_Use]. rewrite IH. simpl. by rewrite <- app_assoc.
Qed.

(** C5: [Use], on a router and on a route, appends its arguments to the
    owner's chain in argument order; successive calls add up ([A, B] then
    [C] gives [A, B, C] behind what was there); an entry already in the
    chain keeps its place, and nothing else of the owner changes. *)
Theorem Use_appends_in_order (r : Router) (rt : Route)
    (mwf mwf' : list MiddlewareFunc) (A B C : MiddlewareFunc) :
  (middlewares (Router_Use mwf r)
     = middlewares r ++ (of_MiddlewareFunc <$> mwf)
   ∧ routes (Router_Use mwf r) = routes r
   ∧ Router_Use mwf' (Router_Use mwf r) = Router_Use (mwf ++ mwf') r
   ∧ middlewares (Router_Use [C] (Router_Use [A; B] r))
     = middlewares r
       ++ [of_MiddlewareFunc A; of_MiddlewareFunc B; of_MiddlewareFunc C]
   ∧ ∀ i mw, middlewares r !! i = Some mw →
             middlewares (Router_Use mwf r) !! i = Some mw)
  ∧ (route_middlewares (Route_Use mwf rt)
       = route_middlewares rt ++ (of_MiddlewareFunc <$> mwf)
     ∧ engine (Route_Use mwf rt) = engine rt
     ∧ Route_Use mwf' (Route_Use mwf rt) = Route_Use (mwf ++ mwf') rt
     ∧ route_middlewares (Route_Use [C] (Route_Use [A; B] rt))
       = route_middlewares rt
         ++ [of_MiddlewareFunc A; of_MiddlewareFunc B; of_MiddlewareFunc C]
     ∧ ∀ i mw, route_middlewares rt !! i = Some mw →
               route_middlewares (Route_Use mwf rt) !! i = Some mw).
Proof.
  split.
  - rewrite !Router_Use_spec. simpl. split_and!; try done.
    + by rewrite fmap_app, app_assoc.
    + by rewrite <- app_assoc.
    + intros i mw Hi. by apply lookup_app_l_Some.
  - rewrite !Route_Use_spec. simpl. split_and!; try done.
    + by rewrite fmap_app, app_assoc.
    + by rewrite <- app_assoc.
    + intros i mw Hi. by apply lookup_app_l_Some.
Qed.

(** C6: [UseWithLogging name mw] appends one element to the chain [Use]
    appends to, the [MiddlewareFuncWithLogging] made of [mw] and [name];
    the entries before it stay as they were, and the chain grows exactly
    as it does when [mw] is appended plain. *)
Theorem UseWithLogging_appends_one (r : Router) (rt : Route) (name : string)
    (mw : MiddlewareFunc) :
  (middlewares (Router_UseWithLogging name mw r)
     = middlewares r
       ++ [of_MiddlewareFuncWithLogging {| Handler_ := mw; Name := name |}]
   ∧ routes (Router_UseWithLogging name mw r) = routes r
   ∧ middlewares (Router_Use [mw] r) = middlewares r ++ [of_MiddlewareFunc mw]
   ∧ length (middlewares (Router_UseWithLogging name mw r))
     = length (middlewares (Router_Use [mw] r))
   ∧ ∀ i m, middlewares r !! i = Some m →
            middlewares (Router_UseWithLogging name mw r) !! i = Some m)
  ∧ (route_middlewares (Route_UseWithLogging name mw rt)
       = route_middlewares rt
         ++ [of_MiddlewareFuncWithLogging {| Handler_ := mw; Name := name |}]
     ∧ engine (Route_UseWithLogging name mw rt) = engine rt
     ∧ route_middlewares (Route_Use [mw] rt)
       = route_middlewares rt ++ [of_MiddlewareFunc mw]
     ∧ length (route_middlewares (Route_UseWithLogging name mw rt))
       = length (route_middlewares (Route_Use [mw] rt))
     ∧ ∀ i m, route_middlewares rt !! i = Some m →
              route_middlewares (Route_UseWithLogging name mw rt) !! i = Some m).
Proof.
  unfold Router_UseWithLogging, Router_useInterface,
    Route_UseWithLogging, Route_useInterface. simpl.
  split; split_and!; try done.
  - by rewrite !length_app.
  - intros i m Hi. by apply lookup_app_l_Some.
  - by rewrite !length_app.
  - intros i m Hi. by apply lookup_app_l_Some.
Qed.

(** ** The logging adapter *)

(** The handler the adapter passes to the wrapped interceptor as its
    [next]: one record, then the downstream handler, on the same writer and
    request, with nothing else touched. *)
Lemma logging_next (name : string) (handler : Handler) (w : ptr)
    (r : Request) (σ : World) :
  ServeHTTP (HandlerFunc (λ w r,
      log_Printf ("Executing middleware: " +:+ name) ;; ServeHTTP handler w r))
    w r σ
  = ServeHTTP handler w r
      {| routers := routers σ; writers := writers σ;
         logged := logged σ ++ ["Executing middleware: " +:+ name] |}.
Proof. done. Qed.

(** C7: the adapter does not log once per request ahead of the wrapped
    interceptor's handler; it logs when that handler calls its next.  At
    an interceptor that answers by itself a request is served and no record
    is written, so the adapter differs from the log-first reading; an
    interceptor that logs on its way in has its own line ahead of the
    adapter's; one that calls next twice leaves two records for one
    request. *)
Lemma MiddlewareFuncWithLogging_log_first_fails :
  ServeHTTP (Middleware {| Handler_ := deny; Name := "auth" |} echo) 2
    {| Method := "GET"; Host := ""; Path := "/x" |} (heap1 [])
  ≠ ServeHTTP (log_then_wrapped {| Handler_ := deny; Name := "auth" |} echo) 2
      {| Method := "GET"; Host := ""; Path := "/x" |} (heap1 [])
  ∧ logged <$> final
      (ServeHTTP (Middleware {| Handler_ := deny; Name := "auth" |} echo) 2
         {| Method := "GET"; Host := ""; Path := "/x" |} (heap1 []))
    = Some []
  ∧ logged <$> final
      (ServeHTTP (log_then_wrapped {| Handler_ := deny; Name := "auth" |} echo)
         2 {| Method := "GET"; Host := ""; Path := "/x" |} (heap1 []))
    = Some ["Executing middleware: auth"]
  ∧ logged <$> final
      (ServeHTTP
         (Middleware
            {| Handler_ := around (announce "timer: start")
                             (announce "timer: stop");
               Name := "timer" |} echo) 2
         {| Method := "GET"; Host := ""; Path := "/x" |} (heap1 []))
    = Some ["timer: start"; "Executing middleware: timer"; "timer: stop"]
  ∧ logged <$> final
      (ServeHTTP (Middleware {| Handler_ := again; Name := "retry" |} echo) 2
         {| Method := "GET"; Host := ""; Path := "/x" |} (heap1 []))
    = Some ["Executing middleware: retry"; "Executing middleware: retry"].
Proof.
  split; [|split_and!; reflexivity].
  intros Heq. apply (f_equal (λ x, logged <$> final x)) in Heq.
  vm_compute in Heq. discriminate Heq.
Qed.

(** ** The router behind the pointer *)

Lemma register_run (r : ptr) (route : matching) (σ : World)
    (rs : list matching) :
  routers σ !! r = Some rs →
  register r route σ
  = Done () {| routers := <[r := rs ++ [route]]> (routers σ);
               writers := writers σ; logged := logged σ |}.
Proof. intros Hr. unfold register. by rewrite Hr. Qed.

Lemma aggregate_snoc (rs : list matching) (route : matching) (req : Request)
    (ms ms' : list string) :
  aggregate rs req = (ms, None) → included req route = true →
  GetMethods route = (ms', None) →
  aggregate (rs ++ [route]) req = (ms ++ ms', None).
Proof.
  intros Hagg Hinc Hget. rewrite <- !rangeRoutes_aggregate in *.
  rewrite rangeRoutes_app, Hagg, rangeRoutes_take by done.
  by rewrite Hget.
Qed.

(** C8: the handler holds the router's address, not its routes.  Built
    first and run after a route has been registered, it aggregates over the
    list with the new route at its end: the new route's methods follow the
    earlier aggregate, and the header is the one of the longer list. *)
Theorem CORSMethodMiddleware_sees_later_routes (r : ptr) (next : Handler)
    (w : ptr) (req : Request) (σ : World) (rs : list matching)
    (route : matching) :
  routers σ !! r = Some rs → is_Some (writers σ !! w) →
  ∃ σ',
    register r route σ = Done () σ'
    ∧ routers σ' !! r = Some (rs ++ [route])
    ∧ getAllMethodsForRoute r req σ' = Done (aggregate (rs ++ [route]) req) σ'
    ∧ (∀ ms ms',
         aggregate rs req = (ms, None) → included req route = true →
         GetMethods route = (ms', None) →
         getAllMethodsForRoute r req σ' = Done (ms ++ ms', None) σ')
    ∧ (h ← mret (CORSMethodMiddleware r next);
       register r route ;;
       ServeHTTP h w req) σ
      = ServeHTTP next w req (advertise (rs ++ [route]) w req σ').
Proof.
  intros Hr Hw. eexists. split; [by apply register_run|].
  assert (routers {| routers := <[r := rs ++ [route]]> (routers σ);
                     writers := writers σ; logged := logged σ |} !! r
          = Some (rs ++ [route])) as Hr' by apply lookup_insert_eq.
  split; [done|]. split_and!.
  - by rewrite (getAllMethodsForRoute_run _ _ _ _ Hr'), rangeRoutes_aggregate.
  - intros ms ms' Hagg Hinc Hget.
    rewrite (getAllMethodsForRoute_run _ _ _ _ Hr'), rangeRoutes_aggregate.
    by rewrite (aggregate_snoc _ _ _ _ _ Hagg Hinc Hget).
  - rewrite (bind_Done _ _ σ σ (CORSMethodMiddleware r next)) by done.
    rewrite (bind_Done _ _ _ _ _ (register_run _ _ _ _ Hr)).
    by apply CORSMethodMiddleware_hands_on.
Qed.

(** The router has no route when the middleware is built; the route
    registered afterwards decides the header. *)
Lemma CORSMethodMiddleware_sees_later_routes_witness :
  ∃ σ',
    register 1 (pathRoute "/x" ["OPTIONS"; "GET"]) (heap1 []) = Done () σ'
    ∧ routers σ' !! 1%positive = Some ([] ++ [pathRoute "/x" ["OPTIONS"; "GET"]])
    ∧ getAllMethodsForRoute 1
        {| Method := "OPTIONS"; Host := ""; Path := "/x" |} σ'
      = Done (aggregate ([] ++ [pathRoute "/x" ["OPTIONS"; "GET"]])
                {| Method := "OPTIONS"; Host := ""; Path := "/x" |}) σ'
    ∧ (∀ ms ms',
         aggregate [] {| Method := "OPTIONS"; Host := ""; Path := "/x" |}
           = (ms, None) →
         included {| Method := "OPTIONS"; Host := ""; Path := "/x" |}
           (pathRoute "/x" ["OPTIONS"; "GET"]) = true →
         GetMethods (pathRoute "/x" ["OPTIONS"; "GET"]) = (ms', None) →
         getAllMethodsForRoute 1
           {| Method := "OPTIONS"; Host := ""; Path := "/x" |} σ'
         = Done (ms ++ ms', None) σ')
    ∧ (h ← mret (CORSMethodMiddleware 1 echo);
       register 1 (pathRoute "/x" ["OPTIONS"; "GET"]) ;;
       ServeHTTP h 2 {| Method := "OPTIONS"; Host := ""; Path := "/x" |})
        (heap1 [])
      = ServeHTTP echo 2 {| Method := "OPTIONS"; Host := ""; Path := "/x" |}
          (advertise ([] ++ [pathRoute "/x" ["OPTIONS"; "GET"]]) 2
             {| Method := "OPTIONS"; Host := ""; Path := "/x" |} σ').
Proof.
  apply (CORSMethodMiddleware_sees_later_routes 1%positive echo 2%positive
           {| Method := "OPTIONS"; Host := ""; Path := "/x" |} (heap1 []) []
           (pathRoute "/x" ["OPTIONS"; "GET"])).
  - reflexivity.
  - simpl. eauto.
Defined.

(** ** Further properties of the aggregation *)

(** A successful aggregation, spelled out. *)
Lemma aggregate_success (rs : list matching) (req : Request)
    (ms : list string) :
  aggregate rs req = (ms, None) ↔
  (∀ route, route ∈ rs → included req route = true →
            (GetMethods route).2 = None)
  ∧ ms = List.flat_map (λ route, (GetMethods route).1)
           (List.filter (included req) rs).
Proof.
  split.
  - unfold aggregate.
    destruct (List.find fails _) as [bad|] eqn:Hfind.
    + apply find_some in Hfind as [_ Hbad]. intros [= _ Hnone].
      unfold fails in Hbad. apply bool_decide_eq_true in Hbad as [e He].
      congruence.
    + intros [= <-]. split; [|done]. intros route Hin Hinc.
      eapply find_none in Hfind;
        [|apply filter_In; split; [by apply list_elem_of_In|done]].
      unfold fails in Hfind. apply bool_decide_eq_false in Hfind.
      destruct (GetMethods route).2; [|done]. destruct Hfind. eauto.
  - intros [Hok ->]. by apply aggregate_all_report.
Qed.

Lemma getAllMethodsForRoute_success (r : ptr) (req : Request) (σ : World)
    (rs : list matching) (ms : list string) :
  routers σ !! r = Some rs →
  getAllMethodsForRoute r req σ = Done (ms, None) σ →
  aggregate rs req = (ms, None).
Proof.
  intros Hr. rewrite (getAllMethodsForRoute_run _ _ _ _ Hr).
  rewrite rangeRoutes_aggregate. by intros [= ->].
Qed.

(** X1: a method is in a successful aggregate exactly when an included
    route of the router lists it; the aggregation invents no method and
    drops none. *)
Theorem getAllMethodsForRoute_members (r : ptr) (req : Request) (σ : World)
    (rs : list matching) (ms : list string) :
  routers σ !! r = Some rs →
  getAllMethodsForRoute r req σ = Done (ms, None) σ →
  ∀ m, m ∈ ms ↔
       ∃ route, route ∈ rs ∧ included req route = true
                ∧ m ∈ (GetMethods route).1.
Proof.
  intros Hr Hget m.
  apply (getAllMethodsForRoute_success _ _ _ _ _ Hr) in Hget.
  apply aggregate_success in Hget as [_ ->].
  rewrite list_elem_of_In, in_flat_map. split.
  - intros (route & Hin & Hm). apply filter_In in Hin as [Hin Hinc].
    exists route. by rewrite !list_elem_of_In.
  - intros (route & Hin & Hinc & Hm). exists route.
    rewrite filter_In, <- !list_elem_of_In. done.
Qed.

Lemma getAllMethodsForRoute_members_witness :
  "DELETE" ∈ ["GET"; "OPTIONS"; "POST"] ↔
  ∃ route,
    route ∈ [pathRoute "/x" ["GET"]; pathRoute "/y" ["DELETE"];
             pathRoute "/x" ["OPTIONS"; "POST"]]
    ∧ included {| Method := "PUT"; Host := ""; Path := "/x" |} route = true
    ∧ "DELETE" ∈ (GetMethods route).1.
Proof.
  apply (getAllMethodsForRoute_members 1%positive
           {| Method := "PUT"; Host := ""; Path := "/x" |}
           (heap1 [pathRoute "/x" ["GET"]; pathRoute "/y" ["DELETE"];
                   pathRoute "/x" ["OPTIONS"; "POST"]]));
    reflexivity.
Defined.

(** The loop started with a non-empty [allMethods] only puts that list in
    front. *)
Lemma rangeRoutes_acc (rs : list matching) (req : Request)
    (acc : list string) :
  rangeRoutes rs req acc =
    match rangeRoutes rs req [] with
    | (ms, None) => (acc ++ ms, None)
    | (_, Some e) => ([], Some e)
    end.
Proof.
  rewrite !rangeRoutes_spec.
  destruct (List.find fails _) as [bad|] eqn:Hfind; [|done].
  apply find_some in Hfind as [_ Hbad].
  unfold fails in Hbad. apply bool_decide_eq_true in Hbad as [e He].
  by rewrite He.
Qed.

(** X2: aggregating over two route lists one after the other is
    aggregating over each and putting the results together: an error of the
    first list is the outcome whatever follows it, otherwise an error of the
    second list is, otherwise the two method lists in order. *)
Theorem rangeRoutes_concat (rs1 rs2 : list matching) (req : Request) :
  rangeRoutes (rs1 ++ rs2) req [] =
    match rangeRoutes rs1 req [], rangeRoutes rs2 req [] with
    | (_, Some e), _ => ([], Some e)
    | (_, None), (_, Some e) => ([], Some e)
    | (ms1, None), (ms2, None) => (ms1 ++ ms2, None)
    end.
Proof.
  rewrite rangeRoutes_app.
  destruct (rangeRoutes rs1 req []) as [ms1 [e|]]; [done|].
  rewrite rangeRoutes_acc.
  by destruct (rangeRoutes rs2 req []) as [ms2 [e|]].
Qed.

Lemma aggregate_lists_iff (rs : list matching) (req : Request) (m : string) :
  (∃ ms, aggregate rs req = (ms, None) ∧ m ∈ ms) ↔
  (∀ route, route ∈ rs → included req route = true →
            (GetMethods route).2 = None)
  ∧ ∃ route, route ∈ rs ∧ included req route = true
             ∧ m ∈ (GetMethods route).1.
Proof.
  split.
  - intros (ms & Hagg & Hm). apply aggregate_success in Hagg as [Hok ->].
    split; [done|].
    apply list_elem_of_In, in_flat_map in Hm as (route & Hin & Hm).
    apply filter_In in Hin as [Hin Hinc].
    exists route. by rewrite !list_elem_of_In.
  - intros (Hok & route & Hin & Hinc & Hm). eexists. split.
    + by apply aggregate_all_report.
    + apply list_elem_of_In, in_flat_map. exists route.
      rewrite filter_In, <- !list_elem_of_In. done.
Qed.

(** X3: registration order decides the order of the methods, not which
    methods there are: two routers holding the same routes in different
    order succeed together, and then list the same methods.  In particular
    they agree on whether [OPTIONS] is there, that is, on whether the header
    is set. *)
Theorem getAllMethodsForRoute_order_irrelevant (r r' : ptr) (req : Request)
    (σ σ' : World) (rs rs' : list matching) (m : string) :
  routers σ !! r = Some rs → routers σ' !! r' = Some rs' → rs ≡ₚ rs' →
  (∃ ms, getAllMethodsForRoute r req σ = Done (ms, None) σ ∧ m ∈ ms)
  ↔ (∃ ms', getAllMethodsForRoute r' req σ' = Done (ms', None) σ' ∧ m ∈ ms').
Proof.
  intros Hr Hr' Hperm.
  rewrite (getAllMethodsForRoute_run _ _ _ _ Hr).
  rewrite (getAllMethodsForRoute_run _ _ _ _ Hr').
  rewrite !rangeRoutes_aggregate.
  assert (∀ (τ : World) (l : list matching),
            (∃ ms, Done (aggregate l req) τ = Done (ms, None) τ ∧ m ∈ ms)
            ↔ (∃ ms, aggregate l req = (ms, None) ∧ m ∈ ms)) as Hdone.
  { intros τ l. split; intros (ms & Heq & Hm); exists ms.
    - by injection Heq as ->.
    - by rewrite Heq. }
  rewrite !Hdone, !aggregate_lists_iff.
  split; intros (Hok & route & Hin & Hrest).
  - split.
    + intros route' Hin'. apply Hok. by rewrite Hperm.
    + exists route. by rewrite <- Hperm.
  - split.
    + intros route' Hin'. apply Hok. by rewrite <- Hperm.
    + exists route. by rewrite Hperm.
Qed.

Lemma getAllMethodsForRoute_order_irrelevant_witness :
  (∃ ms,
     getAllMethodsForRoute 1 {| Method := "GET"; Host := ""; Path := "/x" |}
       (heap1 [pathRoute "/x" ["GET"]; pathRoute "/x" ["OPTIONS"]])
     = Done (ms, None)
         (heap1 [pathRoute "/x" ["GET"]; pathRoute "/x" ["OPTIONS"]])
     ∧ "OPTIONS" ∈ ms)
  ↔ (∃ ms',
       getAllMethodsForRoute 1 {| Method := "GET"; Host := ""; Path := "/x" |}
         (heap1 [pathRoute "/x" ["OPTIONS"]; pathRoute "/x" ["GET"]])
       = Done (ms', None)
           (heap1 [pathRoute "/x" ["OPTIONS"]; pathRoute "/x" ["GET"]])
       ∧ "OPTIONS" ∈ ms').
Proof.
  apply (getAllMethodsForRoute_order_irrelevant 1%positive 1%positive _
           (heap1 _) (heap1 _)
           [pathRoute "/x" ["GET"]; pathRoute "/x" ["OPTIONS"]]
           [pathRoute "/x" ["OPTIONS"]; pathRoute "/x" ["GET"]]).
  - reflexivity.
  - reflexivity.
  - apply perm_swap.
Defined.

(** X4: the routes that are left out are invisible: the loop over the whole
    list gives what it gives over the included routes alone, errors
    included. *)
Theorem rangeRoutes_only_included (rs : list matching) (req : Request) :
  rangeRoutes rs req [] = rangeRoutes (List.filter (included req) rs) req [].
Proof.
  rewrite !rangeRoutes_spec.
  assert (List.filter (included req) (List.filter (included req) rs)
          = List.filter (included req) rs) as ->; [|done].
  induction rs as [|route rest IH]; [done|]. cbn [List.filter].
  destruct (included req route) eqn:Hinc; [|done].
  cbn [List.filter]. by rewrite Hinc, IH.
Qed.

(** ** Further properties of the handler *)

Lemma advertise_again (rs : list matching) (w : ptr) (req : Request)
    (σ : World) :
  advertise rs w req (advertise rs w req σ) = advertise rs w req σ.
Proof.
  unfold advertise. destruct (aggregate rs req) as [ms [e|]]; [done|].
  case_bool_decide; [|done].
  unfold with_writers; simpl. f_equal. apply map_eq. intros w'.
  destruct (decide (w = w')) as [<-|Hne].
  - rewrite !lookup_alter_eq. destruct (writers σ !! w) as [rw|]; [|done].
    simpl. by rewrite set_header_twice.
  - by rewrite !lookup_alter_ne.
Qed.

(** X5: installing the middleware twice for the same router is harmless:
    the doubled handler does what the single one does. *)
Theorem CORSMethodMiddleware_twice (r : ptr) (next : Handler) (w : ptr)
    (req : Request) (σ : World) (rs : list matching) :
  routers σ !! r = Some rs → is_Some (writers σ !! w) →
  ServeHTTP (CORSMethodMiddleware r (CORSMethodMiddleware r next)) w req σ
  = ServeHTTP (CORSMethodMiddleware r next) w req σ.
Proof.
  intros Hr [rw Hw].
  rewrite (CORSMethodMiddleware_hands_on r (CORSMethodMiddleware r next)
             _ _ _ _ Hr) by eauto.
  destruct (advertise_writer rs w req σ rw Hw) as (rw' & Hw' & _).
  rewrite (CORSMethodMiddleware_hands_on r next w req (advertise rs w req σ) rs).
  - rewrite advertise_again.
    symmetry. apply CORSMethodMiddleware_hands_on; eauto.
  - by rewrite (proj1 (advertise_routers rs w req σ)).
  - eauto.
Qed.

Lemma CORSMethodMiddleware_twice_witness :
  ServeHTTP (CORSMethodMiddleware 1 (CORSMethodMiddleware 1 echo)) 2
    {| Method := "OPTIONS"; Host := ""; Path := "/x" |}
    (heap1 [pathRoute "/x" ["GET"]; pathRoute "/x" ["OPTIONS"]])
  = ServeHTTP (CORSMethodMiddleware 1 echo) 2
      {| Method := "OPTIONS"; Host := ""; Path := "/x" |}
      (heap1 [pathRoute "/x" ["GET"]; pathRoute "/x" ["OPTIONS"]]).
Proof.
  apply (CORSMethodMiddleware_twice 1%positive echo 2%positive _ (heap1 _)
           [pathRoute "/x" ["GET"]; pathRoute "/x" ["OPTIONS"]]).
  - reflexivity.
  - simpl. eauto.
Defined.

(** X6: the middleware behind the [middleware] interface, plain and with
    logging.  Under the plain value the downstream handler starts from the
    heap after step 3; under the logging value it starts from that same
    heap with one record [Executing middleware: <name>] more in the log:
    routers and writers are the same in both. *)
Theorem CORSMethodMiddleware_behind_interface (r : ptr) (name : string)
    (handler : Handler) (w : ptr) (req : Request) (σ : World)
    (rs : list matching) :
  routers σ !! r = Some rs → is_Some (writers σ !! w) →
  ServeHTTP (Middleware (of_MiddlewareFunc (CORSMethodMiddleware r)) handler)
    w req σ
  = ServeHTTP handler w req (advertise rs w req σ)
  ∧ ServeHTTP
      (Middleware
         (of_MiddlewareFuncWithLogging
            {| Handler_ := CORSMethodMiddleware r; Name := name |}) handler)
      w req σ
    = ServeHTTP handler w req
        {| routers := routers (advertise rs w req σ);
           writers := writers (advertise rs w req σ);
           logged := logged σ ++ ["Executing middleware: " +:+ name] |}.
Proof.
  intros Hr Hw. split.
  - by apply CORSMethodMiddleware_hands_on.
  - unfold Middleware at 1, middleware_Middleware.
    unfold Middleware, MiddlewareFuncWithLogging_Middleware; simpl.
    rewrite (CORSMethodMiddleware_hands_on _ _ _ _ _ _ Hr Hw).
    rewrite logging_next.
    by rewrite (proj2 (advertise_routers rs w req σ)).
Qed.

Lemma CORSMethodMiddleware_behind_interface_witness :
  ServeHTTP (Middleware (of_MiddlewareFunc (CORSMethodMiddleware 1)) echo)
    2 {| Method := "OPTIONS"; Host := ""; Path := "/x" |}
    (heap1 [pathRoute "/x" ["OPTIONS"]])
  = ServeHTTP echo 2 {| Method := "OPTIONS"; Host := ""; Path := "/x" |}
      (advertise [pathRoute "/x" ["OPTIONS"]] 2
         {| Method := "OPTIONS"; Host := ""; Path := "/x" |}
         (heap1 [pathRoute "/x" ["OPTIONS"]]))
  ∧ ServeHTTP
      (Middleware
         (of_MiddlewareFuncWithLogging
            {| Handler_ := CORSMethodMiddleware 1; Name := "cors" |}) echo)
      2 {| Method := "OPTIONS"; Host := ""; Path := "/x" |}
      (heap1 [pathRoute "/x" ["OPTIONS"]])
    = ServeHTTP echo 2 {| Method := "OPTIONS"; Host := ""; Path := "/x" |}
        {| routers :=
             routers (advertise [pathRoute "/x" ["OPTIONS"]] 2
                        {| Method := "OPTIONS"; Host := ""; Path := "/x" |}
                        (heap1 [pathRoute "/x" ["OPTIONS"]]));
           writers :=
             writers (advertise [pathRoute "/x" ["OPTIONS"]] 2
                        {| Method := "OPTIONS"; Host := ""; Path := "/x" |}
                        (heap1 [pathRoute "/x" ["OPTIONS"]]));
           logged := logged (heap1 [pathRoute "/x" ["OPTIONS"]])
                     ++ ["Executing middleware: " +:+ "cors"] |}.
Proof.
  apply (CORSMethodMiddleware_behind_interface 1%positive "cors" echo
           2%positive _ (heap1 _) [pathRoute "/x" ["OPTIONS"]]).
  - reflexivity.
  - simpl. eauto.
Defined.

(** X9: the writer is touched only to set the header.  When no successful
    aggregate holds [OPTIONS] (the aggregation failed, or [OPTIONS] is not
    among the methods) the handler is the next handler, for every writer,
    whatever it refers to. *)
Theorem CORSMethodMiddleware_leaves_writer (r : ptr) (req : Request)
    (σ : World) (rs : list matching) :
  routers σ !! r = Some rs →
  (∀ ms, getAllMethodsForRoute r req σ = Done (ms, None) σ →
         MethodOptions ∉ ms) →
  ∀ (next : Handler) (w : ptr),
    ServeHTTP (CORSMethodMiddleware r next) w req σ = ServeHTTP next w req σ.
Proof.
  intros Hr Hno next w. rewrite (CORSMethodMiddleware_run _ _ _ _ _ _ Hr).
  rewrite (getAllMethodsForRoute_run _ _ _ _ Hr) in Hno.
  destruct (rangeRoutes rs req []) as [ms [e|]]; [done|].
  case_bool_decide; [|done]. by destruct (Hno ms).
Qed.

(** The route lists [GET] only; the writer address 7 refers to nothing. *)
Lemma CORSMethodMiddleware_leaves_writer_witness :
  ServeHTTP (CORSMethodMiddleware 1 echo) 7
    {| Method := "OPTIONS"; Host := ""; Path := "/y" |}
    (heap1 [pathRoute "/y" ["GET"]])
  = ServeHTTP echo 7 {| Method := "OPTIONS"; Host := ""; Path := "/y" |}
      (heap1 [pathRoute "/y" ["GET"]]).
Proof.
  refine (CORSMethodMiddleware_leaves_writer 1%positive _ (heap1 _)
            [pathRoute "/y" ["GET"]] _ _ echo 7%positive).
  - reflexivity.
  - intros ms Hget. vm_compute in Hget. injection Hget as <-.
    intros Hin. apply list_elem_of_In in Hin. simpl in Hin.
    destruct Hin as [Hin|[]]. discriminate Hin.
Defined.

(** ** Further properties of the chains *)

(** X7: calls of [Use] and [UseWithLogging] on one owner may be mixed; the
    chain lists the interceptors in the order of the calls, and a plain
    interceptor is appended by [Use] exactly as [useInterface] appends it. *)
Theorem Use_UseWithLogging_in_call_order (r : Router) (rt : Route)
    (mwf mwf' : list MiddlewareFunc) (name : string) (mw : MiddlewareFunc) :
  (middlewares
     (Router_Use mwf' (Router_UseWithLogging name mw (Router_Use mwf r)))
   = middlewares r ++ (of_MiddlewareFunc <$> mwf)
     ++ [of_MiddlewareFuncWithLogging {| Handler_ := mw; Name := name |}]
     ++ (of_MiddlewareFunc <$> mwf')
   ∧ routes (Router_Use mwf' (Router_UseWithLogging name mw (Router_Use mwf r)))
     = routes r
   ∧ Router_Use [mw] r = Router_useInterface (of_MiddlewareFunc mw) r)
  ∧ (route_middlewares
       (Route_Use mwf' (Route_UseWithLogging name mw (Route_Use mwf rt)))
     = route_middlewares rt ++ (of_MiddlewareFunc <$> mwf)
       ++ [of_MiddlewareFuncWithLogging {| Handler_ := mw; Name := name |}]
       ++ (of_MiddlewareFunc <$> mwf')
     ∧ engine (Route_Use mwf' (Route_UseWithLogging name mw (Route_Use mwf rt)))
       = engine rt
     ∧ Route_Use [mw] rt = Route_useInterface (of_MiddlewareFunc mw) rt).
Proof.
  unfold Router_UseWithLogging, Router_useInterface,
    Route_UseWithLogging, Route_useInterface.
  rewrite !Router_Use_spec, !Route_Use_spec; simpl.
  by rewrite <- !app_assoc.
Qed.

(** ** Further properties of the logging adapter *)

(** X10: logging adapters nest in chain order.  With two named
    interceptors that each call next once, the outer one around the inner
    one, a request runs the outer interceptor's way in, the outer record,
    the inner interceptor's way in, the inner record, the handler, and then
    the two ways out, inner first. *)
Theorem MiddlewareFuncWithLogging_nested (name1 name2 : string)
    (before1 after1 before2 after2 handler : Handler) (w : ptr) (r : Request)
    (σ : World) :
  ServeHTTP
    (Middleware {| Handler_ := around before1 after1; Name := name1 |}
       (Middleware {| Handler_ := around before2 after2; Name := name2 |}
          handler)) w r σ
  = (ServeHTTP before1 w r ;;
     log_Printf ("Executing middleware: " +:+ name1) ;;
     ServeHTTP before2 w r ;;
     log_Printf ("Executing middleware: " +:+ name2) ;;
     ServeHTTP handler w r ;;
     ServeHTTP after2 w r ;;
     ServeHTTP after1 w r) σ.
Proof.
  unfold Middleware, MiddlewareFuncWithLogging_Middleware, around,
    HandlerFunc, ServeHTTP; simpl.
  unfold mbind, M_bind.
  destruct (before1 w r σ) as [[] σ1|]; [|done].
  destruct (log_Printf _ σ1) as [[] σ2|]; [|done].
  destruct (before2 w r σ2) as [[] σ3|]; [|done].
  destruct (log_Printf _ σ3) as [[] σ4|]; [|done].
  destruct (handler w r σ4) as [[] σ5|]; [|done].
  by destruct (after2 w r σ5) as [[] σ6|].
Qed.
